(** * UniswapGetPosition: the packed encoder and the position key

    A shallow embedding of [main.go]: [int24Bytes], [encodePacked] and
    [calcPositionKey], with the parts of Go's runtime and of [math/big],
    [bytes] and [fmt] that these functions call.

    Conventions.
    - A Go [byte] is a [Byte.byte]; a [[]byte] is a [list byte], the nil
      slice being the empty list.
    - A [*big.Int] is an [option Z]: [Some n] points to the integer [n],
      [None] is the nil pointer.  [int24Bytes] is stated on the integer its
      argument points to; a call with the nil pointer panics, which
      [encodePacked] models where it makes that call.
    - An [int32] is a [Z] together with its range.
    - A Go [error] is its message; the nil error is [None].
    - A call returns or panics ([go]); a panic unwinds through the
      callers. *)

From Stdlib Require Import String Ascii.
From Stdlib Require Import ZArith List Lia Bool.
From Stdlib Require Import Strings.Byte.
Import ListNotations.

Local Open Scope Z_scope.

(** ** Returning and panicking *)

Inductive go (A : Type) : Type :=
| Returns (a : A)
| Panics (msg : string).

Arguments Returns {A} a.
Arguments Panics {A} msg.

(** The run-time error of a method call through a nil pointer. *)
Definition nil_dereference : string :=
  "runtime error: invalid memory address or nil pointer dereference".

(** ** Bytes *)

Definition byte_of_Z (z : Z) : byte :=
  match Byte.of_N (Z.to_N (z mod 256)) with
  | Some b => b
  | None => x00
  end.

Definition Z_of_byte (b : byte) : Z := Z.of_N (Byte.to_N b).

(** [be_bytes k n]: the [k] low-order bytes of [n], most significant
    first. *)
Fixpoint be_bytes (k : nat) (n : Z) : list byte :=
  match k with
  | O => []
  | S k' => be_bytes k' (n / 256) ++ [byte_of_Z (n mod 256)]
  end.

(** The unsigned integer a byte sequence denotes, most significant byte
    first. *)
Definition be_value (bs : list byte) : Z :=
  fold_left (fun acc b => acc * 256 + Z_of_byte b) bs 0.

(** ** math/big *)

Module big.

(** [big.NewInt(x)] *)
Definition NewInt (x : Z) : Z := x.

(** [z.Sub(x, y)] sets [z] to [x - y] and returns [z]. *)
Definition Sub (z x y : Z) : Z := x - y.

(** [x.Sign()]: -1, 0 or +1. *)
Definition Sign (x : Z) : Z := Z.sgn x.

(** The number of bytes of the absolute value: [(BitLen + 7) / 8]. *)
Definition byteLen (x : Z) : nat :=
  if Z.abs x =? 0 then O
  else Z.to_nat ((Z.log2 (Z.abs x) + 8) / 8).

(** [x.Bytes()]: the absolute value of [x] as a big-endian byte slice,
    without leading zero bytes. *)
Definition Bytes (x : Z) : list byte := be_bytes (byteLen x) (Z.abs x).

End big.

(** ** Go builtins *)

(** [make([]byte, n)] *)
Definition make (n : nat) : list byte := repeat x00 n.

(** [copy(dst, src)] overwrites the first [min(len(dst), len(src))]
    elements of [dst] with those of [src]; the result is [dst] after the
    call. *)
Definition copy (dst src : list byte) : list byte :=
  firstn (length dst) src ++ skipn (length src) dst.

(** [s[i:]] for an index computed in [int]. *)
Definition slice_from (s : list byte) (i : Z) : list byte :=
  skipn (Z.to_nat i) s.

(** [len(s)] as an [int]. *)
Definition len (s : list byte) : Z := Z.of_nat (length s).

(** ** int24Bytes (main.go, 108-120)

    [n] is the integer the argument points to. *)

Definition int24Bytes (n : Z) : list byte :=
  let bytes := make 3 in
  let n :=
    if big.Sign n =? -1 then
      let n := big.Sub (big.NewInt 0) (big.NewInt 0) n in
      big.Sub (big.NewInt 0) (big.NewInt (Z.shiftl 1 24)) n
    else n in
  copy bytes (slice_from (big.Bytes n) (Z.max 0 (len (big.Bytes n) - 3))).

(** ** Types of go-ethereum's [common] package and Go's [int32] *)

(** [common.Address] is [[20]byte]. *)
Record Address : Type := mkAddress {
  Address_array : list byte;
  Address_size : Nat.eqb (length Address_array) 20 = true
}.

(** [a.Bytes()] is [a[:]]. *)
Definition Address_Bytes (a : Address) : list byte := Address_array a.

(** [common.Hash] is [[32]byte]. *)
Record Hash : Type := mkHash {
  Hash_array : list byte;
  Hash_size : Nat.eqb (length Hash_array) 32 = true
}.

(** [common.Hash{}], the zero value. *)
Definition Hash_zero : Hash := mkHash (repeat x00 32) eq_refl.

Definition in_int32 (z : Z) : bool := (-2147483648 <=? z) && (z <=? 2147483647).

Record int32 : Type := mkInt32 {
  int32_val : Z;
  int32_range : in_int32 int32_val = true
}.

(** [int64(v)] of an [int32] keeps the value. *)
Definition int64_of_int32 (v : int32) : Z := int32_val v.

(** ** Arguments of [encodePacked]

    [args ...interface{}]: each argument is a value with its dynamic type.
    The type switch tells five types apart; of a value of any other type it
    only looks at the type, which [Other] keeps as Go prints it with [%T]
    ([<nil>] for the nil interface).  A [*big.Int] argument may be the
    nil pointer. *)
Inductive iface : Type :=
| OfAddress (v : Address)
| OfBigInt (v : option Z)
| OfInt32 (v : int32)
| OfString (v : string)
| OfBytes (v : list byte)
| Other (T : string).

(** What [fmt] prints for [%T]. *)
Definition typeName (arg : iface) : string :=
  match arg with
  | OfAddress _ => "common.Address"
  | OfBigInt _ => "*big.Int"
  | OfInt32 _ => "int32"
  | OfString _ => "string"
  | OfBytes _ => "[]uint8"
  | Other T => T
  end.

(** A Go [error], by its message. *)
Definition error : Type := option string.

(** [fmt.Errorf("unsupported type: %T", v)] *)
Definition Errorf_unsupported_type (v : iface) : error :=
  Some ("unsupported type: " ++ typeName v)%string.

(** ** bytes.Buffer *)

Module Buffer.

Definition t : Type := list byte.

(** [var buffer bytes.Buffer] *)
Definition zero : t := [].

(** [buffer.Write(p)] appends [p]. *)
Definition Write (b : t) (p : list byte) : t := b ++ p.

(** [buffer.Bytes()] *)
Definition Bytes (b : t) : list byte := b.

End Buffer.

(** ** encodePacked (main.go, 84-106) *)

(** The [for ... range args] loop, from a buffer already written to.
    In [case *big.Int] the call [int24Bytes(v)] with a nil [v] panics in
    [n.Sign()] (main.go, 112), before anything is written. *)
Fixpoint encodePacked_from (buffer : Buffer.t) (args : list iface)
  : go (list byte * error) :=
  match args with
  | [] => Returns (Buffer.Bytes buffer, None)
  | arg :: args' =>
      match arg with
      | OfAddress v =>
          encodePacked_from (Buffer.Write buffer (Address_Bytes v)) args'
      | OfBigInt None => Panics nil_dereference
      | OfBigInt (Some n) =>
          encodePacked_from (Buffer.Write buffer (int24Bytes n)) args'
      | OfInt32 v =>
          let bigInt := big.NewInt (int64_of_int32 v) in
          encodePacked_from (Buffer.Write buffer (int24Bytes bigInt)) args'
      | OfString v =>
          encodePacked_from (Buffer.Write buffer (list_byte_of_string v)) args'
      | OfBytes v =>
          encodePacked_from (Buffer.Write buffer v) args'
      | Other _ => Returns ([], Errorf_unsupported_type arg)
      end
  end.

Definition encodePacked (args : list iface) : go (list byte * error) :=
  encodePacked_from Buffer.zero args.

(** ** calcPositionKey (main.go, 72-79)

    [crypto.Keccak256Hash] belongs to go-ethereum; it is a parameter here,
    a function from byte sequences to [common.Hash]. *)
Section KeyDeriver.

Variable Keccak256Hash : list byte -> Hash.

Definition calcPositionKey (address : Address) (tickLower tickUpper : int32)
  : go (Hash * error) :=
  match encodePacked [OfAddress address; OfInt32 tickLower; OfInt32 tickUpper] with
  | Panics msg => Panics msg
  | Returns (_, Some err) => Returns (Hash_zero, Some err)
  | Returns (callData, None) => Returns (Keccak256Hash callData, None)
  end.

End KeyDeriver.

(** ** Keccak-256

    An instance for the parameter of [calcPositionKey].  go-ethereum's
    [crypto.Keccak256Hash] is not among the sources; this is Keccak-256 as
    its designers specify it: the permutation Keccak-f[1600] in a sponge of
    rate 136 bytes, with the padding 01 .. 80, and the first 32 bytes of
    the state as the digest. *)
Module Keccak.

(** The state: 25 lanes of 64 bits, lane [(x, y)] at index [x + 5 * y]. *)
Definition state : Type := list Z.

Definition mask64 : Z := 2 ^ 64 - 1.

Definition rotl64 (w : Z) (r : Z) : Z :=
  Z.land (Z.lor (Z.shiftl w r) (Z.shiftr w (64 - r))) mask64.

Definition lane (st : state) (x y : nat) : Z :=
  nth (x mod 5 + 5 * (y mod 5)) st 0.

Definition lanes (f : nat -> nat -> Z) : state :=
  map (fun i => f (i mod 5)%nat (i / 5)%nat) (seq 0 25).

Definition theta (st : state) : state :=
  let C x :=
    fold_left Z.lxor (map (lane st x) (seq 0 5)) 0 in
  let D x := Z.lxor (C (x + 4)%nat) (rotl64 (C (x + 1)%nat) 1) in
  lanes (fun x y => Z.lxor (lane st x y) (D x)).

(** Rotation offsets, indexed like the state. *)
Definition offsets : list Z :=
  [  0;  1; 62; 28; 27;
    36; 44;  6; 55; 20;
     3; 10; 43; 25; 39;
    41; 45; 15; 21;  8;
    18;  2; 61; 56; 14 ].

(** [B[y, 2x + 3y] = rot(A[x, y], r[x, y])], read from the target. *)
Definition rho_pi (st : state) : state :=
  lanes (fun X Y =>
           let x := ((X + 3 * Y) mod 5)%nat in
           let y := X in
           rotl64 (lane st x y) (nth (x + 5 * y) offsets 0)).

Definition chi (st : state) : state :=
  lanes (fun x y =>
           Z.lxor (lane st x y)
                  (Z.land (Z.lxor (lane st (x + 1) y) mask64)
                          (lane st (x + 2) y))).

Definition iota (rc : Z) (st : state) : state :=
  match st with
  | [] => []
  | a :: st' => Z.lxor a rc :: st'
  end.

Definition round_constants : list Z :=
  [ 0x0000000000000001; 0x0000000000008082; 0x800000000000808A;
    0x8000000080008000; 0x000000000000808B; 0x0000000080000001;
    0x8000000080008081; 0x8000000000008009; 0x000000000000008A;
    0x0000000000000088; 0x0000000080008009; 0x000000008000000A;
    0x000000008000808B; 0x800000000000008B; 0x8000000000008089;
    0x8000000000008003; 0x8000000000008002; 0x8000000000000080;
    0x000000000000800A; 0x800000008000000A; 0x8000000080008081;
    0x8000000000008080; 0x0000000080000001; 0x8000000080008008 ].

Definition round (st : state) (rc : Z) : state :=
  iota rc (chi (rho_pi (theta st))).

Definition keccak_f (st : state) : state :=
  fold_left round round_constants st.

Definition rate : nat := 136.

(** XOR the byte [b] into the state at byte position [pos]. *)
Definition xor_byte (st : state) (pos : nat) (b : Z) : state :=
  let i := (pos / 8)%nat in
  let sh := Z.of_nat (8 * (pos mod 8)) in
  firstn i st ++ Z.lxor (nth i st 0) (Z.shiftl b sh) :: skipn (S i) st.

(** Absorb the message byte by byte, permuting when a block is full. *)
Fixpoint absorb (st : state) (pos : nat) (data : list byte) : state * nat :=
  match data with
  | [] => (st, pos)
  | b :: data' =>
      let st := xor_byte st pos (Z_of_byte b) in
      if Nat.eqb (S pos) rate then absorb (keccak_f st) 0 data'
      else absorb st (S pos) data'
  end.

Definition pad_and_permute (sp : state * nat) : state :=
  let '(st, pos) := sp in
  keccak_f (xor_byte (xor_byte st pos 0x01) (rate - 1) 0x80).

Definition squeeze (st : state) (i : nat) : byte :=
  byte_of_Z (Z.shiftr (nth (i / 8) st 0) (Z.of_nat (8 * (i mod 8)))).

Definition digest (data : list byte) : list byte :=
  let st := pad_and_permute (absorb (repeat 0 25) 0 data) in
  map (squeeze st) (seq 0 32).

Definition Keccak256Hash (data : list byte) : Hash :=
  mkHash (digest data) eq_refl.

End Keccak.

(** ** The package-level values of main.go *)

Definition tickLower : int32 := mkInt32 (-197740) eq_refl.
Definition tickUpper : int32 := mkInt32 (-197640) eq_refl.

(** [common.HexToAddress("0xF829c130478599E4EF49F6e02EDaA1F8736E9B00")] *)
Definition ownerPositionAddress : Address :=
  mkAddress
    [xf8; x29; xc1; x30; x47; x85; x99; xe4; xef; x49;
     xf6; xe0; x2e; xda; xa1; xf8; x73; x6e; x9b; x00] eq_refl.

(** ** main (main.go, 18-70) *)

(** [Position]: five [*big.Int], nil in the zero value. *)
Record Position : Type := mkPosition {
  Liquidity : option Z;
  FeeGrowthInside0LastX128 : option Z;
  FeeGrowthInside1LastX128 : option Z;
  TokensOwed0 : option Z;
  TokensOwed1 : option Z
}.

(** [var position Position] *)
Definition Position_zero : Position := mkPosition None None None None None.

Definition nodeAddr : string := "https://arbitrum.llamarpc.com".

(** Every ['] becomes a double quote. *)
Fixpoint double_quoted (s : string) : string :=
  match s with
  | EmptyString => EmptyString
  | String c s' =>
      String (if Ascii.eqb c "'" then ascii_of_nat 34 else c) (double_quoted s')
  end.

(** The text of [abiUniV3Pool], its double quotes written as [']. *)
Definition abiUniV3Pool : string :=
  double_quoted
    ("[{'inputs':[{'internalType':'bytes32','name':'','type':'bytes32'" ++
     "}],'name':'positions','outputs':[{'internalType':'uint128','name" ++
     "':'liquidity','type':'uint128'},{'internalType':'uint256','name'" ++
     ":'feeGrowthInside0LastX128','type':'uint256'},{'internalType':'u" ++
     "int256','name':'feeGrowthInside1LastX128','type':'uint256'},{'in" ++
     "ternalType':'uint128','name':'tokensOwed0','type':'uint128'},{'i" ++
     "nternalType':'uint128','name':'tokensOwed1','type':'uint128'}],'" ++
     "stateMutability':'view','type':'function'}]")%string.

Definition positionsMethod : string := "positions".

(** [common.HexToAddress("0xc6962004f452be9203591991d15f6b388e09e8d0")] *)
Definition poolAddress : Address :=
  mkAddress
    [xc6; x96; x20; x04; xf4; x52; xbe; x92; x03; x59;
     x19; x91; xd1; x5f; x6b; x38; x8e; x09; xe8; xd0] eq_refl.

(** [ethereum.CallMsg] with the two fields main sets. *)
Record CallMsg : Type := mkCallMsg {
  To : Address;
  Data : list byte
}.

(** An operand of [log.Fatal]. *)
Inductive operand : Type :=
| Text (s : string)
| Err (e : string).

(** How main ends: in [log.Fatal(v...)], which exits, after
    [fmt.Printf(format, a)], or in a panic. *)
Inductive outcome : Type :=
| Fatal (v : list operand)
| Printf (format : string) (a : Position)
| Panic (msg : string).

(** The calls into go-ethereum are parameters: [abi.JSON], [ABI.Pack],
    [ethclient.Dial], [Client.CallContract] (with the background context
    and the nil block number) and [ABI.UnpackIntoInterface], which is given
    the value of [position] and returns the value it leaves there. *)
Section Main.

Variables ABI Client : Type.
Variable Keccak256Hash : list byte -> Hash.
Variable abi_JSON : string -> ABI * error.
Variable Pack : ABI -> string -> Hash -> list byte * error.
Variable Dial : string -> Client * error.
Variable CallContract : Client -> CallMsg -> list byte * error.
Variable UnpackIntoInterface :
  ABI -> Position -> string -> list byte -> Position * error.

Definition main : outcome :=
  match calcPositionKey Keccak256Hash ownerPositionAddress tickLower tickUpper with
  | Panics msg => Panic msg
  | Returns (_, Some err) => Fatal [Text "calc position key:"; Err err]
  | Returns (positionKey, None) =>
      let '(contract, _) := abi_JSON abiUniV3Pool in
      let '(calldata, _) := Pack contract positionsMethod positionKey in
      match Dial nodeAddr with
      | (_, Some err) => Fatal [Text "conenct to node:"; Err err]
      | (client, None) =>
          match CallContract client (mkCallMsg poolAddress calldata) with
          | (_, Some err) => Fatal [Text "call contract:"; Err err]
          | (response, None) =>
              let position := Position_zero in
              match UnpackIntoInterface contract position positionsMethod response with
              | (_, Some err) =>
                  Fatal [Text "parse result contract: "; Err err;
                         Text "response: "; Text (string_of_list_byte response)]
              | (position, None) => Printf "%+v" position
              end
          end
      end
  end.

End Main.

(** ** Reference functions of the specification *)

(** [decodeInt24], in the specification's words: the bytes read as a
    big-endian 24-bit two's-complement integer. *)
Definition decodeInt24 (bs : list byte) : Z :=
  let u := be_value bs in
  if u <? 2 ^ 23 then u else u - 2 ^ 24.

(** [encodeInt24], in the specification's words (4.1): [2^24 + value] for
    a negative value, the value itself otherwise, serialized as exactly 3
    bytes, most significant first, left-zero-padded. *)
Definition encodeInt24_spec (v : Z) : list byte :=
  be_bytes 3 (if v <? 0 then 2 ^ 24 + v else v).

(** The declared byte width of a supported value (specification, 3). *)
Definition declared_width (arg : iface) : nat :=
  match arg with
  | OfAddress _ => 20
  | OfBigInt _ | OfInt32 _ => 3
  | OfString v => String.length v
  | OfBytes v => length v
  | Other _ => 0
  end.

(** The closed set of supported types. *)
Definition supported (arg : iface) : bool :=
  match arg with
  | Other _ => false
  | _ => true
  end.

(** The arguments in front of the first one of another type. *)
Fixpoint before_unsupported (args : list iface) : list iface :=
  match args with
  | [] => []
  | Other _ :: _ => []
  | arg :: args' => arg :: before_unsupported args'
  end.

(** Anything but a nil [*big.Int]. *)
Definition non_nil (arg : iface) : bool :=
  match arg with
  | OfBigInt None => false
  | _ => true
  end.

(** The buffer [encodePacked] returns for one value on its own. *)
Definition packed_of (arg : iface) : list byte :=
  match encodePacked [arg] with
  | Returns (buf, _) => buf
  | Panics _ => []
  end.

(** ** StructuredDecoder *)

Module StructuredDecoder.

Inductive DecodeError : Type := MalformedResponse.

(** One entry of a FieldSchema: name, bit width, signedness. *)
Record Field : Type := mkField {
  field_name : string;
  field_bits : Z;
  field_signed : bool
}.

Definition FieldSchema : Type := list Field.

(** The outputs of [positions] in [abiUniV3Pool] (main.go, 30). *)
Definition positions_outputs : FieldSchema :=
  [ mkField "liquidity" 128 false;
    mkField "feeGrowthInside0LastX128" 256 false;
    mkField "feeGrowthInside1LastX128" 256 false;
    mkField "tokensOwed0" 128 false;
    mkField "tokensOwed1" 128 false ].

Definition StructuredRecord : Type := list (string * Z).

Definition word_size : nat := 32.

(** The word in slot [slot] of [raw], when [raw] holds all of it. *)
Definition word_at (raw : list byte) (slot : nat) : option (list byte) :=
  let w := firstn word_size (skipn (word_size * slot) raw) in
  if Nat.eqb (length w) word_size then Some w else None.

(** Modelled from the spec: the decoder behind
    [contract.UnpackIntoInterface] (main.go, 65) is go-ethereum's and is
    not among the sources.  Following 4.3: fields are decoded in schema
    order, one word-aligned slot each; a field's bytes are read as a
    big-endian unsigned integer; decoding fails with MalformedResponse
    when the buffer is shorter than the schema requires or a value
    exceeds its declared bit width. *)
Fixpoint decode_from (slot : nat) (schema : FieldSchema) (raw : list byte)
  : DecodeError + StructuredRecord :=
  match schema with
  | [] => inr []
  | f :: schema' =>
      match word_at raw slot with
      | None => inl MalformedResponse
      | Some w =>
          let v := be_value w in
          if v <? 2 ^ field_bits f then
            match decode_from (S slot) schema' raw with
            | inl e => inl e
            | inr r => inr ((field_name f, v) :: r)
            end
          else inl MalformedResponse
      end
  end.

Definition decode (schema : FieldSchema) (raw : list byte)
  : DecodeError + StructuredRecord :=
  decode_from 0 schema raw.

(** The number of bytes a schema requires. *)
Definition required_length (schema : FieldSchema) : nat :=
  word_size * length schema.

End StructuredDecoder.

(** * Properties *)

(** ** Bytes and big-endian numerals *)

Section BigEndian.

Lemma Z_of_byte_range (b : byte) : 0 <= Z_of_byte b < 256.
Proof.
  unfold Z_of_byte. pose proof (Byte.to_N_bounded b). lia.
Qed.

Lemma Z_of_byte_of_Z (z : Z) : Z_of_byte (byte_of_Z z) = z mod 256.
Proof.
  unfold Z_of_byte, byte_of_Z.
  assert (Hr : 0 <= z mod 256 < 256) by (apply Z.mod_pos_bound; lia).
  destruct (Byte.of_N (Z.to_N (z mod 256))) as [b|] eqn:E.
  - apply Byte.to_of_N in E. rewrite E. apply Z2N.id. lia.
  - apply Byte.of_N_None_iff in E. lia.
Qed.

Lemma byte_of_Z_mod (z : Z) : byte_of_Z (z mod 256) = byte_of_Z z.
Proof.
  unfold byte_of_Z. rewrite Z.mod_mod by lia. reflexivity.
Qed.

Lemma byte_of_Z_zero_iff (z : Z) : byte_of_Z z = x00 <-> z mod 256 = 0.
Proof.
  split; intros H.
  - rewrite <- Z_of_byte_of_Z, H. reflexivity.
  - rewrite <- byte_of_Z_mod, H. reflexivity.
Qed.

Lemma be_bytes_S (k : nat) (n : Z) :
  be_bytes (S k) n = be_bytes k (n / 256) ++ [byte_of_Z (n mod 256)].
Proof. reflexivity. Qed.

Lemma length_be_bytes (k : nat) : forall n, length (be_bytes k n) = k.
Proof.
  induction k as [|k IH]; intros n; simpl; [reflexivity|].
  rewrite length_app, IH. simpl. lia.
Qed.

Lemma be_bytes_app (j k : nat) :
  forall n, be_bytes (j + k) n = be_bytes j (n / 256 ^ Z.of_nat k) ++ be_bytes k n.
Proof.
  induction k as [|k IH]; intros n.
  - rewrite Nat.add_0_r, Z.pow_0_r, Z.div_1_r, app_nil_r. reflexivity.
  - replace (j + S k)%nat with (S (j + k)) by lia.
    rewrite !be_bytes_S, IH, app_assoc.
    assert (Hp : 0 < 256 ^ Z.of_nat k) by (apply Z.pow_pos_nonneg; lia).
    rewrite Z.div_div by lia.
    rewrite Nat2Z.inj_succ, Z.pow_succ_r by lia. reflexivity.
Qed.

Lemma be_bytes_mod (k : nat) :
  forall n, be_bytes k (n mod 256 ^ Z.of_nat k) = be_bytes k n.
Proof.
  induction k as [|k IH]; intros n; [reflexivity|].
  rewrite !be_bytes_S.
  rewrite Nat2Z.inj_succ, Z.pow_succ_r by lia.
  assert (Hp : 0 < 256 ^ Z.of_nat k) by (apply Z.pow_pos_nonneg; lia).
  rewrite Z.rem_mul_r by lia.
  f_equal.
  - rewrite Z.mul_comm, Z.div_add by lia.
    rewrite (Z.div_small (n mod 256)) by (apply Z.mod_pos_bound; lia).
    rewrite Z.add_0_l. apply IH.
  - rewrite Z.mul_comm, Z.mod_add by lia.
    rewrite Z.mod_mod by lia. reflexivity.
Qed.

Lemma be_value_snoc (bs : list byte) (b : byte) :
  be_value (bs ++ [b]) = be_value bs * 256 + Z_of_byte b.
Proof.
  unfold be_value. rewrite fold_left_app. reflexivity.
Qed.

Lemma be_value_be_bytes (k : nat) :
  forall n, be_value (be_bytes k n) = n mod 256 ^ Z.of_nat k.
Proof.
  induction k as [|k IH]; intros n.
  - simpl. rewrite Z.mod_1_r. reflexivity.
  - rewrite be_bytes_S, be_value_snoc, IH, Z_of_byte_of_Z.
    rewrite Nat2Z.inj_succ, Z.pow_succ_r by lia.
    assert (Hp : 0 < 256 ^ Z.of_nat k) by (apply Z.pow_pos_nonneg; lia).
    rewrite Z.rem_mul_r, Z.mod_mod by lia. lia.
Qed.

Lemma be_value_app_zeros (bs : list byte) (k : nat) :
  be_value (bs ++ repeat x00 k) = be_value bs * 256 ^ Z.of_nat k.
Proof.
  induction k as [|k IH].
  - simpl. rewrite app_nil_r. lia.
  - replace (repeat x00 (S k)) with (repeat x00 k ++ [x00])
      by (symmetry; apply (repeat_cons k x00)).
    rewrite app_assoc, be_value_snoc, IH.
    rewrite Nat2Z.inj_succ, Z.pow_succ_r by lia.
    change (Z_of_byte x00) with 0. lia.
Qed.

End BigEndian.

(** ** big.Int.Bytes *)

Section BigBytes.

Lemma byteLen_pos (n : Z) :
  0 < n -> big.byteLen n = Z.to_nat ((Z.log2 n + 8) / 8).
Proof.
  intros Hn. unfold big.byteLen.
  rewrite Z.abs_eq by lia.
  destruct (n =? 0) eqn:E; [lia|reflexivity].
Qed.

(** Between [256^(k-1)] and [256^k] the absolute value takes [k] bytes. *)
Lemma byteLen_unique (n : Z) (k : nat) :
  256 ^ Z.of_nat k <= n < 256 ^ Z.of_nat (S k) -> big.byteLen n = S k.
Proof.
  intros [Hlo Hhi].
  assert (Hp : 0 < 256 ^ Z.of_nat k) by (apply Z.pow_pos_nonneg; lia).
  assert (Hn : 0 < n) by lia.
  rewrite byteLen_pos by exact Hn.
  change 256 with (2 ^ 8) in Hlo, Hhi.
  rewrite <- Z.pow_mul_r in Hlo, Hhi by lia.
  apply Z.log2_le_pow2 in Hlo; [|lia].
  apply Z.log2_lt_pow2 in Hhi; [|lia].
  rewrite Nat2Z.inj_succ in Hhi.
  assert ((Z.log2 n + 8) / 8 = Z.of_nat (S k)).
  { rewrite Nat2Z.inj_succ.
    Z.to_euclidean_division_equations. lia. }
  lia.
Qed.

Lemma byteLen_bounds (n : Z) :
  0 < n ->
  256 ^ (Z.of_nat (big.byteLen n) - 1) <= n < 256 ^ Z.of_nat (big.byteLen n).
Proof.
  intros Hn. rewrite byteLen_pos by exact Hn.
  pose proof (Z.log2_nonneg n) as Hl.
  pose proof (Z.log2_spec n Hn) as [Hlo Hhi].
  set (l := Z.log2 n) in *.
  assert (Hq : 0 <= l / 8) by (apply Z.div_pos; lia).
  assert (Hd : 8 * (l / 8) <= l < 8 * (l / 8) + 8)
    by (Z.to_euclidean_division_equations; lia).
  replace ((l + 8) / 8) with (l / 8 + 1)
    by (Z.to_euclidean_division_equations; lia).
  rewrite Z2Nat.id by lia.
  change 256 with (2 ^ 8). rewrite <- !Z.pow_mul_r by lia.
  split.
  - apply Z.le_trans with (2 ^ l); [|exact Hlo].
    apply Z.pow_le_mono_r; lia.
  - apply Z.lt_le_trans with (2 ^ Z.succ l); [exact Hhi|].
    apply Z.pow_le_mono_r; lia.
Qed.

Lemma length_Bytes (n : Z) : length (big.Bytes n) = big.byteLen n.
Proof. apply length_be_bytes. Qed.

(** [Bytes] denotes the absolute value. *)
Lemma be_value_Bytes (n : Z) : be_value (big.Bytes n) = Z.abs n.
Proof.
  unfold big.Bytes. rewrite be_value_be_bytes.
  destruct (Z.eq_dec (Z.abs n) 0) as [E|E].
  - rewrite E. apply Z.mod_0_l.
    unfold big.byteLen. rewrite E. simpl. lia.
  - assert (Hb := byteLen_bounds (Z.abs n) ltac:(lia)).
    replace (big.byteLen n) with (big.byteLen (Z.abs n))
      by (unfold big.byteLen; rewrite Z.abs_idemp; reflexivity).
    apply Z.mod_small. lia.
Qed.

(** A non-zero number has a first byte, and it is not zero. *)
Lemma Bytes_head_nonzero (n : Z) :
  n <> 0 -> exists b bs, big.Bytes n = b :: bs /\ b <> x00.
Proof.
intros Hn.
assert (Ha : 0 < Z.abs n) by lia.
pose proof (byteLen_bounds (Z.abs n) Ha) as [Hlo Hhi].
assert (EL : big.byteLen (Z.abs n) = big.byteLen n)
  by (unfold big.byteLen; rewrite Z.abs_idemp; reflexivity).
rewrite EL in Hlo, Hhi.
destruct (big.byteLen n) as [|k] eqn:Ek.
- simpl in Hhi. lia.
- unfold big.Bytes. rewrite Ek.
  change (S k) with (1 + k)%nat. rewrite be_bytes_app.
  replace (Z.of_nat (S k) - 1) with (Z.of_nat k) in Hlo by lia.
  rewrite Nat2Z.inj_succ, Z.pow_succ_r in Hhi by lia.
  assert (Hp : 0 < 256 ^ Z.of_nat k) by (apply Z.pow_pos_nonneg; lia).
  set (m := Z.abs n / 256 ^ Z.of_nat k).
  assert (Hm : 1 <= m < 256).
  { unfold m. split.
    - apply Z.div_le_lower_bound; lia.
    - apply Z.div_lt_upper_bound; lia. }
  exists (byte_of_Z (m mod 256)), (be_bytes k (Z.abs n)).
  split; [reflexivity|].
  rewrite byte_of_Z_zero_iff, Z.mod_mod, Z.mod_small by lia. lia.
Qed.

End BigBytes.

(** ** copy and slicing *)

Section Slices.

Lemma length_copy (dst src : list byte) : length (copy dst src) = length dst.
Proof.
  unfold copy. rewrite length_app, length_firstn, length_skipn. lia.
Qed.

Lemma copy_same_length (dst src : list byte) :
  length src = length dst -> copy dst src = src.
Proof.
  intros H. unfold copy.
  rewrite <- H, firstn_all, skipn_all2 by lia. apply app_nil_r.
Qed.

Lemma copy_shorter (dst src : list byte) :
  (length src <= length dst)%nat ->
  copy dst src = src ++ skipn (length src) dst.
Proof.
  intros H. unfold copy. rewrite firstn_all2 by exact H. reflexivity.
Qed.

Lemma skipn_make (k n : nat) : skipn k (make n) = repeat x00 (n - k).
Proof.
  unfold make. revert k.
  induction n as [|n IH]; intros [|k]; simpl; try reflexivity. apply IH.
Qed.

End Slices.

(** ** int24Bytes *)

Section Int24.

(** The slice handed to [copy]. *)
Local Abbreviation tail3 m :=
  (slice_from (big.Bytes m) (Z.max 0 (len (big.Bytes m) - 3))).

Lemma int24Bytes_eq (n : Z) :
  int24Bytes n =
  copy (make 3) (tail3 (if n <? 0 then 2 ^ 24 + n else n)).
Proof.
  unfold int24Bytes, big.Sign, big.Sub, big.NewInt.
  change (Z.shiftl 1 24) with (2 ^ 24).
  destruct (Z.sgn n =? -1) eqn:Es; destruct (n <? 0) eqn:En;
    try reflexivity.
  - replace (2 ^ 24 - (0 - n)) with (2 ^ 24 + n) by lia. reflexivity.
  - apply Z.eqb_eq in Es. apply Z.ltb_ge in En. lia.
  - apply Z.eqb_neq in Es. apply Z.ltb_lt in En. lia.
Qed.

Lemma length_int24Bytes (n : Z) : length (int24Bytes n) = 3%nat.
Proof. rewrite int24Bytes_eq. apply length_copy. Qed.

Lemma byteLen_ge_3 (m : Z) : 2 ^ 16 <= m -> (3 <= big.byteLen m)%nat.
Proof.
  intros Hm.
  destruct (byteLen_bounds m ltac:(lia)) as [_ Hhi].
  destruct (le_lt_dec 3 (big.byteLen m)) as [H|H]; [exact H|].
  assert (256 ^ Z.of_nat (big.byteLen m) <= 256 ^ 2)
    by (apply Z.pow_le_mono_r; lia).
  change (256 ^ 2) with (2 ^ 16) in *. lia.
Qed.

Lemma byteLen_le_2 (m : Z) : 0 <= m < 2 ^ 16 -> (big.byteLen m <= 2)%nat.
Proof.
  intros [Hlo Hhi].
  destruct (Z.eq_dec m 0) as [->|Hne]; [cbv; lia|].
  destruct (byteLen_bounds m ltac:(lia)) as [Hb _].
  destruct (le_lt_dec (big.byteLen m) 2) as [H|H]; [exact H|].
  assert (256 ^ 2 <= 256 ^ (Z.of_nat (big.byteLen m) - 1))
    by (apply Z.pow_le_mono_r; lia).
  change (256 ^ 2) with (2 ^ 16) in *. lia.
Qed.

Lemma tail3_wide (m : Z) : 2 ^ 16 <= m -> tail3 m = be_bytes 3 m.
Proof.
  intros Hm. pose proof (byteLen_ge_3 m Hm) as HL.
  unfold slice_from, len. rewrite length_Bytes.
  unfold big.Bytes. rewrite Z.abs_eq by lia.
  replace (Z.to_nat (Z.max 0 (Z.of_nat (big.byteLen m) - 3)))
    with (big.byteLen m - 3)%nat by lia.
  replace (big.byteLen m) with ((big.byteLen m - 3) + 3)%nat at 2 by lia.
  rewrite be_bytes_app, skipn_app, length_be_bytes, Nat.sub_diag.
  rewrite skipn_all2 by (rewrite length_be_bytes; lia).
  reflexivity.
Qed.

Lemma tail3_short (m : Z) : 0 <= m < 2 ^ 16 -> tail3 m = big.Bytes m.
Proof.
  intros Hm. pose proof (byteLen_le_2 m Hm) as HL.
  unfold slice_from, len. rewrite length_Bytes.
  replace (Z.to_nat (Z.max 0 (Z.of_nat (big.byteLen m) - 3)))
    with 0%nat by lia.
  reflexivity.
Qed.

(** From [2^16] upwards the three low-order bytes come out, in order. *)
Lemma int24Bytes_wide (n : Z) : 2 ^ 16 <= n -> int24Bytes n = be_bytes 3 n.
Proof.
  intros Hn. rewrite int24Bytes_eq.
  replace (n <? 0) with false by (symmetry; apply Z.ltb_ge; lia).
  rewrite tail3_wide by exact Hn.
  apply copy_same_length. rewrite length_be_bytes. reflexivity.
Qed.

(** A negative number down to [2^16 - 2^24] is encoded as [2^24 + n]. *)
Lemma int24Bytes_negative (n : Z) :
  2 ^ 16 - 2 ^ 24 <= n < 0 -> int24Bytes n = be_bytes 3 (2 ^ 24 + n).
Proof.
  intros Hn. rewrite int24Bytes_eq.
  replace (n <? 0) with true by (symmetry; apply Z.ltb_lt; lia).
  rewrite tail3_wide by lia.
  apply copy_same_length. rewrite length_be_bytes. reflexivity.
Qed.

(** Below [2^16] the bytes of the number come first and the zero bytes
    of [make] stay behind them. *)
Lemma int24Bytes_short (n : Z) :
  0 <= n < 2 ^ 16 ->
  int24Bytes n = big.Bytes n ++ repeat x00 (3 - big.byteLen n).
Proof.
  intros Hn. pose proof (byteLen_le_2 n Hn) as HL.
  rewrite int24Bytes_eq.
  replace (n <? 0) with false by (symmetry; apply Z.ltb_ge; lia).
  rewrite tail3_short by exact Hn.
  rewrite copy_shorter by (rewrite length_Bytes; simpl; lia).
  rewrite skipn_make, length_Bytes. reflexivity.
Qed.

End Int24.

(** ** Where int24Bytes is, and is not, the 24-bit two's-complement encoding *)

Section Int24Encoding.

Lemma encodeInt24_spec_eq (v : Z) :
  encodeInt24_spec v = be_bytes 3 (v mod 2 ^ 24).
Proof.
  unfold encodeInt24_spec.
  change (2 ^ 24) with (256 ^ Z.of_nat 3).
  rewrite be_bytes_mod.
  destruct (v <? 0); [|reflexivity].
  rewrite <- (be_bytes_mod 3 (_ + v)), Z.add_comm, <- Z.add_mod_idemp_r by lia.
  rewrite Z.mod_same, Z.add_0_r, be_bytes_mod by lia.
  reflexivity.
Qed.

(** Outside the gap [1 .. 2^16 - 1] the code agrees with the
    specification's encoder over the whole int24 range. *)
Lemma int24Bytes_agrees (v : Z) :
  - 2 ^ 23 <= v <= 0 \/ 2 ^ 16 <= v < 2 ^ 23 ->
  int24Bytes v = encodeInt24_spec v.
Proof.
  intros H. unfold encodeInt24_spec.
  destruct (Z.eq_dec v 0) as [->|Hne]; [reflexivity|].
  destruct (v <? 0) eqn:E.
  - apply Z.ltb_lt in E. apply int24Bytes_negative. lia.
  - apply Z.ltb_ge in E. apply int24Bytes_wide. lia.
Qed.

(** Inside the gap the three bytes denote the number shifted left by the
    missing bytes. *)
Lemma be_value_int24Bytes_short (v : Z) :
  0 < v < 2 ^ 16 ->
  be_value (int24Bytes v) = v * 256 ^ Z.of_nat (3 - big.byteLen v) /\
  (1 <= 3 - big.byteLen v)%nat.
Proof.
  intros Hv.
  rewrite int24Bytes_short by lia.
  rewrite be_value_app_zeros, be_value_Bytes, Z.abs_eq by lia.
  split; [reflexivity|].
  pose proof (byteLen_le_2 v ltac:(lia)). lia.
Qed.

Lemma int24Bytes_gap_value (v : Z) :
  0 < v < 2 ^ 16 -> 256 * v <= be_value (int24Bytes v) < 2 ^ 24.
Proof.
  intros Hv.
  destruct (be_value_int24Bytes_short v Hv) as [-> Hk].
  pose proof (byteLen_le_2 v ltac:(lia)) as HL.
  assert (H0 : big.byteLen v <> 0%nat).
  { unfold big.byteLen. rewrite Z.abs_eq by lia.
    destruct (v =? 0) eqn:E; [lia|].
    pose proof (Z.log2_nonneg v).
    assert (1 <= (Z.log2 v + 8) / 8)
      by (Z.to_euclidean_division_equations; lia).
    lia. }
  destruct (big.byteLen v) as [|[|[|L]]] eqn:EL; try lia.
  - change (256 ^ Z.of_nat (3 - 1)) with 65536.
    assert (v < 256).
    { destruct (byteLen_bounds v ltac:(lia)) as [_ Hhi].
      rewrite EL in Hhi. exact Hhi. }
    lia.
  - change (256 ^ Z.of_nat (3 - 2)) with 256. lia.
Qed.

Lemma int24Bytes_gap_differs (v : Z) :
  0 < v < 2 ^ 16 -> int24Bytes v <> encodeInt24_spec v.
Proof.
  intros Hv Heq.
  pose proof (int24Bytes_gap_value v Hv) as Hg.
  rewrite Heq, encodeInt24_spec_eq, be_value_be_bytes in Hg.
  change (256 ^ Z.of_nat 3) with (2 ^ 24) in Hg.
  rewrite Z.mod_mod, Z.mod_small in Hg by lia. lia.
Qed.

Lemma decodeInt24_roundtrip_outside_gap (v : Z) :
  - 2 ^ 23 <= v <= 0 \/ 2 ^ 16 <= v < 2 ^ 23 ->
  decodeInt24 (int24Bytes v) = v.
Proof.
  intros H. rewrite int24Bytes_agrees by exact H.
  unfold decodeInt24, encodeInt24_spec.
  rewrite be_value_be_bytes. change (256 ^ Z.of_nat 3) with (2 ^ 24).
  destruct (v <? 0) eqn:E.
  - apply Z.ltb_lt in E. rewrite Z.mod_small by lia.
    destruct (2 ^ 24 + v <? 2 ^ 23) eqn:E'; [apply Z.ltb_lt in E'|]; lia.
  - apply Z.ltb_ge in E. rewrite Z.mod_small by lia.
    destruct (v <? 2 ^ 23) eqn:E'; [|apply Z.ltb_ge in E']; lia.
Qed.

Lemma decodeInt24_roundtrip_fails_in_gap (v : Z) :
  0 < v < 2 ^ 16 -> decodeInt24 (int24Bytes v) <> v.
Proof.
  intros Hv. pose proof (int24Bytes_gap_value v Hv) as Hg.
  unfold decodeInt24.
  destruct (be_value (int24Bytes v) <? 2 ^ 23); lia.
Qed.

End Int24Encoding.

(** ** Claims on int24Bytes *)

(** C1, at the input 1.  The claim asks for the three bytes to be the
    big-endian numeral of [v mod 2^24], zero-padded on the left, so 1
    should come out as 00 00 01.  The code returns 01 00 00: [copy] writes
    the single byte of [n.Bytes()] at the front of the zeroed slice. *)
Theorem int24Bytes_1_is_left_aligned :
  encodePacked [OfInt32 (mkInt32 1 eq_refl)] = Returns ([x01; x00; x00], None) /\
  be_bytes 3 (1 mod 2 ^ 24) = [x00; x00; x01] /\
  int24Bytes 1 <> be_bytes 3 (1 mod 2 ^ 24).
Proof.
  repeat split; try reflexivity.
  vm_compute. discriminate.
Qed.

(** C2, at the input 1.  The round trip should give 1 back; reading the
    code's output for 1 as a big-endian 24-bit two's-complement integer
    gives 65536. *)
Theorem decodeInt24_int24Bytes_1 :
  decodeInt24 (int24Bytes 1) = 65536 /\ decodeInt24 (int24Bytes 1) <> 1.
Proof.
  split; [reflexivity|]. vm_compute. discriminate.
Qed.

(** C3 as stated fails on its two literals: the code does not return
    FC FF 94 for -197740 nor FD 00 38 for -197640. *)
Lemma int24Bytes_ticks_not_as_claimed :
  int24Bytes (-197740) <> [xfc; xff; x94] /\
  int24Bytes (-197640) <> [xfd; x00; x38].
Proof.
  split; vm_compute; discriminate.
Qed.

(** C3, amended.  Every negative value [v] of the int24 range is encoded
    as the three big-endian bytes of the unsigned integer [2^24 + v]; in
    particular -197740 gives FC FB 94 and -197640 gives FC FB F8. *)
Theorem int24Bytes_negative_twos_complement (v : Z) :
  - 2 ^ 23 <= v < 0 ->
  int24Bytes v = be_bytes 3 (2 ^ 24 + v) /\
  be_value (int24Bytes v) = 2 ^ 24 + v /\
  int24Bytes (-197740) = [xfc; xfb; x94] /\
  int24Bytes (-197640) = [xfc; xfb; xf8].
Proof.
  intros Hv.
  assert (E : int24Bytes v = be_bytes 3 (2 ^ 24 + v))
    by (apply int24Bytes_negative; lia).
  repeat split; try exact E; try reflexivity.
  rewrite E, be_value_be_bytes.
  change (256 ^ Z.of_nat 3) with (2 ^ 24).
  apply Z.mod_small. lia.
Qed.

Lemma int24Bytes_negative_twos_complement_witness :
  - 2 ^ 23 <= -197740 < 0 /\
  int24Bytes (-197740) = be_bytes 3 (2 ^ 24 + -197740) /\
  be_value (int24Bytes (-197740)) = 2 ^ 24 + -197740.
Proof.
  assert (H : - 2 ^ 23 <= -197740 < 0) by lia.
  split; [exact H|].
  destruct (int24Bytes_negative_twos_complement (-197740) H) as (E & V & _).
  split; [exact E | exact V].
Defined.

(** C6.  For a non-negative [n] whose [Bytes()] are more than three,
    int24Bytes returns the last three of them, which are the big-endian
    bytes of [n mod 2^24]; encodePacked reports no error for such an
    argument. *)
Theorem int24Bytes_truncates_to_low_order (n : Z) :
  0 <= n ->
  (3 < length (big.Bytes n))%nat ->
  int24Bytes n = skipn (length (big.Bytes n) - 3) (big.Bytes n) /\
  int24Bytes n = be_bytes 3 (n mod 2 ^ 24) /\
  encodePacked [OfBigInt (Some n)] = Returns (be_bytes 3 (n mod 2 ^ 24), None).
Proof.
  intros Hn HL. rewrite length_Bytes in *.
  assert (Hn' : 2 ^ 24 <= n).
  { assert (n <> 0) by (intros ->; cbv in HL; lia).
    destruct (byteLen_bounds n ltac:(lia)) as [Hlo _].
    assert (256 ^ 3 <= 256 ^ (Z.of_nat (big.byteLen n) - 1))
      by (apply Z.pow_le_mono_r; lia).
    change (256 ^ 3) with (2 ^ 24) in *. lia. }
  assert (E : int24Bytes n = be_bytes 3 (n mod 2 ^ 24)).
  { rewrite int24Bytes_wide by lia.
    change (2 ^ 24) with (256 ^ Z.of_nat 3).
    symmetry. apply be_bytes_mod. }
  split; [|split].
  - rewrite int24Bytes_wide by lia.
    unfold big.Bytes. rewrite Z.abs_eq by lia.
    replace (big.byteLen n) with ((big.byteLen n - 3) + 3)%nat at 2 by lia.
    rewrite be_bytes_app, skipn_app, length_be_bytes, Nat.sub_diag.
    rewrite skipn_all2 by (rewrite length_be_bytes; lia).
    reflexivity.
  - exact E.
  - unfold encodePacked. simpl. rewrite E. reflexivity.
Qed.

Lemma int24Bytes_truncates_to_low_order_witness :
  0 <= 16777221 /\
  (3 < length (big.Bytes 16777221))%nat /\
  int24Bytes 16777221 = [x00; x00; x05] /\
  encodePacked [OfBigInt (Some 16777221)] = Returns ([x00; x00; x05], None).
Proof.
  assert (H0 : 0 <= 16777221) by lia.
  assert (HL : (3 < length (big.Bytes 16777221))%nat) by (vm_compute; lia).
  destruct (int24Bytes_truncates_to_low_order 16777221 H0 HL) as (_ & E & P).
  split; [exact H0 | split; [exact HL | split; [exact E | exact P]]].
Defined.


(** ** encodePacked *)

Section EncodePacked.

Lemma length_Address_Bytes (a : Address) : length (Address_Bytes a) = 20%nat.
Proof. apply Nat.eqb_eq, Address_size. Qed.

Lemma length_list_byte_of_string (s : string) :
  length (list_byte_of_string s) = String.length s.
Proof.
  induction s as [|c s IH]; simpl; [reflexivity|].
  f_equal. exact IH.
Qed.

Lemma packed_of_supported (arg : iface) :
  supported arg = true ->
  non_nil arg = true ->
  forall buffer args,
    encodePacked_from buffer (arg :: args) =
    encodePacked_from (buffer ++ packed_of arg) args.
Proof.
  destruct arg as [a|[n|]|v|s|b|T]; intros H N buffer args;
    try discriminate; reflexivity.
Qed.

Lemma length_packed_of (arg : iface) :
  supported arg = true ->
  non_nil arg = true ->
  length (packed_of arg) = declared_width arg.
Proof.
  destruct arg as [a|[n|]|v|s|b|T]; intros H N; try discriminate;
    unfold packed_of, encodePacked; simpl.
  - apply length_Address_Bytes.
  - apply length_int24Bytes.
  - apply length_int24Bytes.
  - apply length_list_byte_of_string.
  - reflexivity.
Qed.

(** With supported values only, none a nil pointer, the loop runs to its
    end and returns all that was written. *)
Lemma encodePacked_from_supported (args : list iface) :
  forallb supported args = true ->
  forallb non_nil args = true ->
  forall buffer,
    encodePacked_from buffer args =
    Returns (buffer ++ concat (map packed_of args), None).
Proof.
  induction args as [|arg args IH]; intros H N buffer.
  - simpl. rewrite app_nil_r. reflexivity.
  - simpl in H, N.
    apply andb_true_iff in H as [Ha Hr]. apply andb_true_iff in N as [Na Nr].
    rewrite packed_of_supported by assumption.
    rewrite IH by assumption. simpl. rewrite app_assoc. reflexivity.
Qed.

(** The loop stops at the first value of another type. *)
Lemma encodePacked_from_unsupported (pre post : list iface) (T : string) :
  forallb supported pre = true ->
  forallb non_nil pre = true ->
  forall buffer,
    encodePacked_from buffer (pre ++ Other T :: post) =
    Returns ([], Some ("unsupported type: " ++ T)%string).
Proof.
  induction pre as [|arg pre IH]; intros H N buffer.
  - reflexivity.
  - simpl in H, N.
    apply andb_true_iff in H as [Ha Hr]. apply andb_true_iff in N as [Na Nr].
    rewrite <- app_comm_cons, packed_of_supported by assumption.
    apply IH; assumption.
Qed.

(** Among supported values the loop panics at the first nil pointer. *)
Lemma encodePacked_from_nil (args : list iface) :
  forallb supported args = true ->
  forallb non_nil args = false ->
  forall buffer, encodePacked_from buffer args = Panics nil_dereference.
Proof.
  induction args as [|arg args IH]; intros H N buffer; [discriminate|].
  simpl in H. apply andb_true_iff in H as [Ha Hr].
  destruct arg as [a|[n|]|v|s|b|T]; try discriminate;
    try (simpl in N; apply IH; assumption).
  reflexivity.
Qed.

Lemma before_unsupported_spec (args : list iface) :
  forallb supported (before_unsupported args) = true /\
  (Exists (fun arg => supported arg = false) args ->
   exists T post, args = before_unsupported args ++ Other T :: post).
Proof.
  induction args as [|arg args [IHs IHe]]; simpl.
  - split; [reflexivity|]. intros H. inversion H.
  - destruct arg as [a|n|v|s|b|T]; simpl; try (split; [exact IHs|]);
      try (intros H; inversion H as [? ? H0|? ? H0]; subst;
           [discriminate|];
           destruct (IHe H0) as (T & post & E);
           exists T, post; rewrite <- E; reflexivity).
    split; [reflexivity|]. intros _. exists T, args. reflexivity.
Qed.

Lemma first_unsupported (args : list iface) :
  Exists (fun arg => supported arg = false) args ->
  exists pre T post,
    args = pre ++ Other T :: post /\ forallb supported pre = true.
Proof.
  intros H. destruct (before_unsupported_spec args) as [Hs He].
  destruct (He H) as (T & post & E).
  exists (before_unsupported args), T, post. split; assumption.
Qed.

Lemma encodePacked_from_error (args : list iface) :
  forall buffer buf err,
    encodePacked_from buffer args = Returns (buf, Some err) -> buf = [].
Proof.
  induction args as [|arg args IH]; intros buffer buf err H.
  - discriminate.
  - destruct arg as [a|[n|]|v|s|b|T]; simpl in H;
      try (eapply IH; exact H); try discriminate.
    injection H as <- _. reflexivity.
Qed.

(** The loop returns without an error only on supported values, none a
    nil pointer. *)
Lemma encodePacked_from_ok (args : list iface) :
  forall buffer buf,
    encodePacked_from buffer args = Returns (buf, None) ->
    forallb supported args = true /\ forallb non_nil args = true.
Proof.
  induction args as [|arg args IH]; intros buffer buf H.
  - split; reflexivity.
  - destruct arg as [a|[n|]|v|s|b|T]; simpl in H; try discriminate;
      apply IH in H; exact H.
Qed.

End EncodePacked.

(** ** Claims on encodePacked *)

(** C5.  For an address and two int32 values encodePacked returns no error
    and a buffer of 26 bytes, whatever the values; for any list of
    supported values, none a nil pointer, it returns a buffer whose length
    is the sum of their declared widths: 20 for an address, 3 for an
    int24, the length of a string or byte slice; and whenever it returns a
    buffer and no error the buffer has that length. *)
Theorem encodePacked_length :
  (forall (address : Address) (lower upper : int32),
      exists buf,
        encodePacked [OfAddress address; OfInt32 lower; OfInt32 upper] =
          Returns (buf, None) /\
        length buf = 26%nat) /\
  (forall args,
      forallb supported args = true ->
      forallb non_nil args = true ->
      exists buf,
        encodePacked args = Returns (buf, None) /\
        length buf = list_sum (map declared_width args)) /\
  (forall args buf,
      encodePacked args = Returns (buf, None) ->
      length buf = list_sum (map declared_width args)).
Proof.
  assert (G : forall args,
      forallb supported args = true ->
      forallb non_nil args = true ->
      exists buf,
        encodePacked args = Returns (buf, None) /\
        length buf = list_sum (map declared_width args)).
  { intros args H N. unfold encodePacked.
    rewrite encodePacked_from_supported by assumption.
    eexists; split; [reflexivity|]. simpl.
    induction args as [|arg args IH]; [reflexivity|].
    simpl in H, N.
    apply andb_true_iff in H as [Ha Hr]. apply andb_true_iff in N as [Na Nr].
    simpl. rewrite length_app, length_packed_of, IH by assumption.
    reflexivity. }
  split; [|split; [exact G|]].
  - intros address lower upper.
    destruct (G [OfAddress address; OfInt32 lower; OfInt32 upper]
                eq_refl eq_refl)
      as (buf & E & L).
    exists buf. split; [exact E | exact L].
  - intros args buf E.
    destruct (encodePacked_from_ok args _ _ E) as [H N].
    destruct (G args H N) as (buf' & E' & L).
    rewrite E in E'. injection E' as <-. exact L.
Qed.

Lemma encodePacked_length_witness :
  forallb supported [OfString "ab"; OfBytes [x01]; OfBigInt (Some (-1))] = true /\
  exists buf,
    encodePacked [OfString "ab"; OfBytes [x01]; OfBigInt (Some (-1))] =
      Returns (buf, None) /\
    length buf = 6%nat.
Proof.
  split; [reflexivity|].
  exact (proj1 (proj2 encodePacked_length)
           [OfString "ab"; OfBytes [x01]; OfBigInt (Some (-1))]
           eq_refl eq_refl).
Defined.

(** C7 as stated fails: with a nil [*big.Int] in front of a value of
    another type, encodePacked panics and returns no error at all. *)
Lemma encodePacked_nil_before_unsupported :
  Exists (fun arg => supported arg = false) [OfBigInt None; Other "int64"] /\
  encodePacked [OfBigInt None; Other "int64"] = Panics nil_dereference /\
  forall buf err, encodePacked [OfBigInt None; Other "int64"] <> Returns (buf, err).
Proof.
  split; [|split].
  - apply Exists_cons_tl, Exists_cons_hd. reflexivity.
  - reflexivity.
  - intros buf err. discriminate.
Qed.

(** C7, amended.  When some argument has a type outside the supported
    set and no nil [*big.Int] comes before the first such argument,
    encodePacked returns an error, and its message ends with the type of
    that argument as [%T] prints it. *)
Theorem encodePacked_unsupported_type (args : list iface) :
  Exists (fun arg => supported arg = false) args ->
  forallb non_nil (before_unsupported args) = true ->
  exists T post,
    args = before_unsupported args ++ Other T :: post /\
    forallb supported (before_unsupported args) = true /\
    typeName (Other T) = T /\
    encodePacked args = Returns ([], Some ("unsupported type: " ++ T)%string).
Proof.
  intros H N.
  destruct (before_unsupported_spec args) as [Hs He].
  destruct (He H) as (T & post & E).
  exists T, post. repeat split; try assumption.
  rewrite E at 1. unfold encodePacked.
  apply encodePacked_from_unsupported; assumption.
Qed.

Lemma encodePacked_unsupported_type_witness :
  exists T post,
    [OfInt32 tickLower; Other "int64"; OfString "x"] =
      before_unsupported [OfInt32 tickLower; Other "int64"; OfString "x"] ++
      Other T :: post /\
    forallb supported
      (before_unsupported [OfInt32 tickLower; Other "int64"; OfString "x"]) = true /\
    typeName (Other T) = T /\
    encodePacked [OfInt32 tickLower; Other "int64"; OfString "x"] =
    Returns ([], Some ("unsupported type: " ++ T)%string).
Proof.
  apply encodePacked_unsupported_type.
  - apply Exists_cons_tl, Exists_cons_hd. reflexivity.
  - reflexivity.
Defined.

(** C8.  For lists [xs] and [ys] of supported values, encodePacked of
    [xs ++ ys] is the buffer of [xs] followed by the buffer of [ys], and
    panics when either of them does; when no pointer is nil the buffer
    of a list is the concatenation of the buffers of its values, with no
    error; and a string or byte slice contributes its bytes and nothing
    else. *)
Theorem encodePacked_app (xs ys : list iface) :
  forallb supported xs = true ->
  forallb supported ys = true ->
  encodePacked (xs ++ ys) =
    match encodePacked xs, encodePacked ys with
    | Returns (bx, _), Returns (by_, _) => Returns (bx ++ by_, None)
    | Panics msg, _ => Panics msg
    | Returns _, Panics msg => Panics msg
    end /\
  (forallb non_nil xs = true ->
   encodePacked xs = Returns (concat (map packed_of xs), None)) /\
  (forallb non_nil ys = true ->
   encodePacked ys = Returns (concat (map packed_of ys), None)) /\
  (forall s, packed_of (OfString s) = list_byte_of_string s) /\
  (forall b, packed_of (OfBytes b) = b).
Proof.
  intros Hx Hy.
  assert (Hxy : forallb supported (xs ++ ys) = true)
    by (rewrite forallb_app, Hx, Hy; reflexivity).
  unfold encodePacked.
  split; [|repeat split; intros N; apply encodePacked_from_supported; assumption].
  destruct (forallb non_nil xs) eqn:Nx.
  - rewrite (encodePacked_from_supported xs) by assumption.
    destruct (forallb non_nil ys) eqn:Ny.
    + rewrite (encodePacked_from_supported ys) by assumption.
      rewrite encodePacked_from_supported
        by (try assumption; rewrite forallb_app, Nx, Ny; reflexivity).
      simpl. rewrite map_app, concat_app. reflexivity.
    + rewrite (encodePacked_from_nil ys) by assumption.
      apply encodePacked_from_nil; [assumption|].
      rewrite forallb_app, Nx, Ny. reflexivity.
  - rewrite (encodePacked_from_nil xs) by assumption.
    apply encodePacked_from_nil; [assumption|].
    rewrite forallb_app, Nx. reflexivity.
Qed.

Lemma encodePacked_app_witness :
  encodePacked ([OfAddress ownerPositionAddress; OfInt32 tickLower] ++ [OfInt32 tickUpper]) =
  match encodePacked [OfAddress ownerPositionAddress; OfInt32 tickLower],
        encodePacked [OfInt32 tickUpper] with
  | Returns (bx, _), Returns (by_, _) => Returns (bx ++ by_, None)
  | Panics msg, _ => Panics msg
  | Returns _, Panics msg => Panics msg
  end.
Proof.
  exact (proj1 (encodePacked_app
                  [OfAddress ownerPositionAddress; OfInt32 tickLower]
                  [OfInt32 tickUpper] eq_refl eq_refl)).
Defined.

(** C10.  Whenever encodePacked returns an error the buffer it returns is
    nil, whatever was written for the arguments before the offending
    one. *)
Theorem encodePacked_error_nil_buffer (args : list iface) (err : string) :
  (exists buf, encodePacked args = Returns (buf, Some err)) ->
  encodePacked args = Returns ([], Some err).
Proof.
  intros [buf H].
  rewrite H. unfold encodePacked in H.
  apply encodePacked_from_error in H. subst buf. reflexivity.
Qed.

Lemma encodePacked_error_nil_buffer_witness :
  encodePacked [OfAddress ownerPositionAddress; OfInt32 tickLower; Other "int"] =
  Returns ([], Some "unsupported type: int"%string).
Proof.
  apply encodePacked_error_nil_buffer.
  eexists. reflexivity.
Defined.

(** ** calcPositionKey *)

Section CalcPositionKey.

Variable Keccak256Hash : list byte -> Hash.

Lemma length_Hash_array (h : Hash) : length (Hash_array h) = 32%nat.
Proof. apply Nat.eqb_eq, Hash_size. Qed.

(** The buffer that is hashed. *)
Lemma encodePacked_position (address : Address) (lower upper : int32) :
  encodePacked [OfAddress address; OfInt32 lower; OfInt32 upper] =
  Returns
    (Address_array address ++
       int24Bytes (int32_val lower) ++ int24Bytes (int32_val upper), None).
Proof.
  unfold encodePacked. simpl.
  unfold Buffer.Bytes, Buffer.Write, Buffer.zero, Address_Bytes,
    big.NewInt, int64_of_int32.
  rewrite <- app_assoc. reflexivity.
Qed.

Lemma calcPositionKey_eq (address : Address) (lower upper : int32) :
  calcPositionKey Keccak256Hash address lower upper =
  Returns
    (Keccak256Hash
       (Address_array address ++
          int24Bytes (int32_val lower) ++ int24Bytes (int32_val upper)),
     None).
Proof.
  unfold calcPositionKey. rewrite encodePacked_position. reflexivity.
Qed.

End CalcPositionKey.

(** C4.  calcPositionKey returns, with no error, for any address and any
    two int32 values; the key it returns has 32 bytes; and it is the hash
    of a buffer made of the bytes of the address and of the two values
    only, so that inputs with the same bytes and the same values give the
    same key. *)
Theorem calcPositionKey_total_deterministic
  (Keccak256Hash : list byte -> Hash)
  (address : Address) (lower upper : int32) :
  (exists key,
      calcPositionKey Keccak256Hash address lower upper = Returns (key, None) /\
      length (Hash_array key) = 32%nat) /\
  (forall (address' : Address) (lower' upper' : int32),
      Address_array address' = Address_array address ->
      int32_val lower' = int32_val lower ->
      int32_val upper' = int32_val upper ->
      calcPositionKey Keccak256Hash address' lower' upper' =
      calcPositionKey Keccak256Hash address lower upper).
Proof.
  split.
  - eexists. split; [apply calcPositionKey_eq | apply length_Hash_array].
  - intros address' lower' upper' Ha Hl Hu.
    rewrite !calcPositionKey_eq, Ha, Hl, Hu. reflexivity.
Qed.

Lemma calcPositionKey_total_deterministic_witness :
  calcPositionKey Keccak.Keccak256Hash
    (mkAddress (Address_array ownerPositionAddress) eq_refl)
    (mkInt32 (-197740) eq_refl) (mkInt32 (-197640) eq_refl) =
  calcPositionKey Keccak.Keccak256Hash ownerPositionAddress tickLower tickUpper.
Proof.
  exact (proj2 (calcPositionKey_total_deterministic Keccak.Keccak256Hash
                  ownerPositionAddress tickLower tickUpper)
           (mkAddress (Address_array ownerPositionAddress) eq_refl)
           (mkInt32 (-197740) eq_refl) (mkInt32 (-197640) eq_refl)
           eq_refl eq_refl eq_refl).
Defined.

(** ** StructuredDecoder *)

Section Decoder.

Import StructuredDecoder.

Lemma word_at_Some (raw w : list byte) (slot : nat) :
  word_at raw slot = Some w ->
  (word_size * S slot <= length raw)%nat /\ length w = word_size.
Proof.
  unfold word_at.
  destruct (Nat.eqb _ word_size) eqn:E; [|discriminate].
  intros [= <-]. apply Nat.eqb_eq in E. split; [|exact E].
  rewrite length_firstn, length_skipn in E.
  unfold word_size in *. lia.
Qed.

(** A buffer that ends before the last slot of a non-empty schema is
    rejected. *)
Lemma decode_from_short (schema : FieldSchema) :
  forall slot raw,
    schema <> [] ->
    (length raw < word_size * (slot + length schema))%nat ->
    decode_from slot schema raw = inl MalformedResponse.
Proof.
  induction schema as [|f schema IH]; intros slot raw Hne Hlen;
    [congruence|].
  simpl.
  destruct (word_at raw slot) as [w|] eqn:Ew; [|reflexivity].
  destruct (be_value w <? 2 ^ field_bits f); [|reflexivity].
  apply word_at_Some in Ew as [Hw _].
  unfold word_size in *. simpl length in Hlen.
  destruct schema as [|g schema].
  - simpl length in Hlen. lia.
  - rewrite IH; [reflexivity|discriminate|].
    simpl length in *. lia.
Qed.

End Decoder.

(** C9.  A response shorter than the 160 bytes the five-field schema
    requires is answered with MalformedResponse: no record comes out. *)
Theorem decode_short_response (raw : list byte) :
  (length raw < StructuredDecoder.required_length
                  StructuredDecoder.positions_outputs)%nat ->
  StructuredDecoder.required_length StructuredDecoder.positions_outputs = 160%nat /\
  StructuredDecoder.decode StructuredDecoder.positions_outputs raw =
  inl StructuredDecoder.MalformedResponse.
Proof.
  intros H. split; [reflexivity|].
  apply decode_from_short; [discriminate | exact H].
Qed.

Lemma decode_short_response_witness :
  StructuredDecoder.decode StructuredDecoder.positions_outputs (repeat x00 159) =
  inl StructuredDecoder.MalformedResponse.
Proof.
  refine (proj2 (decode_short_response (repeat x00 159) _)).
  vm_compute. lia.
Defined.

(** A response of 160 zero bytes decodes to five zero fields. *)
Example decode_zero_response :
  StructuredDecoder.decode StructuredDecoder.positions_outputs (repeat x00 160) =
  inr [ ("liquidity"%string, 0);
        ("feeGrowthInside0LastX128"%string, 0);
        ("feeGrowthInside1LastX128"%string, 0);
        ("tokensOwed0"%string, 0);
        ("tokensOwed1"%string, 0) ].
Proof. vm_compute. reflexivity. Qed.

(** ** Keccak-256 on known inputs *)

Example Keccak256_empty :
  Hash_array (Keccak.Keccak256Hash []) =
  [xc5; xd2; x46; x01; x86; xf7; x23; x3c; x92; x7e; x7d; xb2; xdc; xc7; x03; xc0;
   xe5; x00; xb6; x53; xca; x82; x27; x3b; x7b; xfa; xd8; x04; x5d; x85; xa4; x70].
Proof. vm_compute. reflexivity. Qed.

Example Keccak256_abc :
  Hash_array (Keccak.Keccak256Hash (list_byte_of_string "abc")) =
  [x4e; x03; x65; x7a; xea; x45; xa9; x4f; xc7; xd4; x7b; xa8; x26; xc8; xd6; x67;
   xc0; xd1; xe6; xe3; x3a; x64; xa0; x36; xec; x44; xf5; x8f; xa1; x2d; x6c; x45].
Proof. vm_compute. reflexivity. Qed.

(** The buffer and the key for the values of main.go. *)
Example encodePacked_main :
  encodePacked [OfAddress ownerPositionAddress; OfInt32 tickLower; OfInt32 tickUpper] =
  Returns
  ([xf8; x29; xc1; x30; x47; x85; x99; xe4; xef; x49;
    xf6; xe0; x2e; xda; xa1; xf8; x73; x6e; x9b; x00;
    xfc; xfb; x94; xfc; xfb; xf8], None).
Proof. reflexivity. Qed.

Example calcPositionKey_main :
  exists key,
  calcPositionKey Keccak.Keccak256Hash ownerPositionAddress tickLower tickUpper =
    Returns (key, None) /\
  Hash_array key =
  [x22; xa6; xa6; x22; xef; x4c; x24; x9c; xcb; x09; xe6; x3f; xde; x1c; x10; xb6;
   x04; xed; x4a; x55; x1e; x15; x67; x27; x1e; x60; x22; x4d; xe1; x11; xe3; xca].
Proof.
eexists. split; [apply calcPositionKey_eq|]. vm_compute. reflexivity.
Qed.

(** * Further properties *)

(** ** int24Bytes on every integer *)

Section Int24Everywhere.

Lemma byte_of_Z_of_byte (b : byte) : byte_of_Z (Z_of_byte b) = b.
Proof.
pose proof (Z_of_byte_range b) as Hr.
unfold byte_of_Z. rewrite Z.mod_small by exact Hr.
unfold Z_of_byte. rewrite N2Z.id, Byte.of_to_N. reflexivity.
Qed.

Lemma be_value_range (bs : list byte) :
  0 <= be_value bs < 256 ^ Z.of_nat (length bs).
Proof.
induction bs as [|b bs IH] using rev_ind.
- cbv. split; [discriminate|reflexivity].
- rewrite be_value_snoc, length_app. simpl length.
  replace (Z.of_nat (length bs + 1)) with (Z.succ (Z.of_nat (length bs))) by lia.
  rewrite Z.pow_succ_r by lia.
  pose proof (Z_of_byte_range b). lia.
Qed.

(** A byte sequence is the big-endian numeral of its value at its own
    length. *)
Lemma be_bytes_be_value (bs : list byte) :
  be_bytes (length bs) (be_value bs) = bs.
Proof.
induction bs as [|b bs IH] using rev_ind; [reflexivity|].
rewrite length_app. simpl length. rewrite Nat.add_1_r, be_bytes_S.
rewrite be_value_snoc.
pose proof (Z_of_byte_range b) as Hb.
set (x := be_value bs) in *.
assert (Hd : (x * 256 + Z_of_byte b) / 256 = x)
  by (Z.to_euclidean_division_equations; lia).
assert (Hm : (x * 256 + Z_of_byte b) mod 256 = Z_of_byte b)
  by (Z.to_euclidean_division_equations; lia).
rewrite Hd, Hm, IH, byte_of_Z_of_byte. reflexivity.
Qed.

Lemma Bytes_abs (x : Z) : big.Bytes (Z.abs x) = big.Bytes x.
Proof.
unfold big.Bytes, big.byteLen. rewrite !Z.abs_idemp. reflexivity.
Qed.

Lemma int24Bytes_nonneg_Bytes (m : Z) :
  0 <= m ->
  int24Bytes m =
  copy (make 3) (slice_from (big.Bytes m) (Z.max 0 (len (big.Bytes m) - 3))).
Proof.
intros Hm. rewrite int24Bytes_eq.
replace (m <? 0) with false by (symmetry; apply Z.ltb_ge; lia).
reflexivity.
Qed.

(** In the gap the bytes are those of the value moved up by the missing
    bytes. *)
Lemma int24Bytes_gap_shifted (v : Z) :
  0 < v < 2 ^ 16 ->
  int24Bytes v = int24Bytes (if v <? 256 then 65536 * v else 256 * v).
Proof.
intros Hv.
set (w := if v <? 256 then 65536 * v else 256 * v).
assert (Hw : 2 ^ 16 <= w /\ w = v * 256 ^ Z.of_nat (3 - big.byteLen v)).
{ unfold w. destruct (v <? 256) eqn:E.
  - apply Z.ltb_lt in E.
    rewrite (byteLen_unique v 0) by (simpl; lia).
    change (256 ^ Z.of_nat (3 - 1)) with 65536. lia.
  - apply Z.ltb_ge in E.
    rewrite (byteLen_unique v 1)
      by (change (2 ^ 16) with (256 ^ 2) in Hv; simpl; lia).
    change (256 ^ Z.of_nat (3 - 2)) with 256. lia. }
destruct Hw as (Hw & Ew).
rewrite (int24Bytes_wide w) by exact Hw.
destruct (be_value_int24Bytes_short v Hv) as [Ev _].
rewrite Ew, <- Ev.
pose proof (be_bytes_be_value (int24Bytes v)) as Hb.
rewrite length_int24Bytes in Hb. symmetry. exact Hb.
Qed.

End Int24Everywhere.

(** X1.  Whatever the integer, in or out of the int24 range, int24Bytes
    returns three bytes, so what they denote is below [2^24]. *)
Theorem int24Bytes_three_bytes_any_integer (n : Z) :
  length (int24Bytes n) = 3%nat /\ 0 <= be_value (int24Bytes n) < 2 ^ 24.
Proof.
assert (L : length (int24Bytes n) = 3%nat)
  by (rewrite int24Bytes_eq; apply length_copy).
split; [exact L|].
pose proof (be_value_range (int24Bytes n)) as H.
rewrite L in H. exact H.
Qed.

(** X2.  On the int24 range the bytes are the big-endian two's
    complement of the value exactly when the value is not in
    [1 .. 65535]. *)
Theorem int24Bytes_big_endian_iff (v : Z) :
  - 2 ^ 23 <= v < 2 ^ 23 ->
  (int24Bytes v = be_bytes 3 (v mod 2 ^ 24) <-> ~ 0 < v < 2 ^ 16).
Proof.
intros Hv. rewrite <- encodeInt24_spec_eq. split.
- intros E Hg. exact (int24Bytes_gap_differs v Hg E).
- intros Hg. apply int24Bytes_agrees. lia.
Qed.

Lemma int24Bytes_big_endian_iff_witness :
  int24Bytes (-197740) = be_bytes 3 (-197740 mod 2 ^ 24).
Proof.
assert (Hv : - 2 ^ 23 <= -197740 < 2 ^ 23) by lia.
apply (proj2 (int24Bytes_big_endian_iff (-197740) Hv)). lia.
Defined.

(** X3.  Two values of the int24 range, neither in [1 .. 65535], that
    have the same bytes are equal. *)
Theorem int24Bytes_injective_outside_gap (v w : Z) :
  - 2 ^ 23 <= v < 2 ^ 23 -> ~ 0 < v < 2 ^ 16 ->
  - 2 ^ 23 <= w < 2 ^ 23 -> ~ 0 < w < 2 ^ 16 ->
  int24Bytes v = int24Bytes w -> v = w.
Proof.
intros Hv Gv Hw Gw E.
rewrite <- (decodeInt24_roundtrip_outside_gap v) by lia.
rewrite <- (decodeInt24_roundtrip_outside_gap w) by lia.
rewrite E. reflexivity.
Qed.

Lemma int24Bytes_injective_outside_gap_witness : -197740 = -197740.
Proof.
apply (int24Bytes_injective_outside_gap (-197740) (-197740));
  try lia; reflexivity.
Defined.

(** X4.  A value from 1 to 65535 is written from the first byte on: one
    byte and two zeros below 256, two bytes and one zero from 256. *)
Theorem int24Bytes_gap_layout (v : Z) :
  0 < v < 2 ^ 16 ->
  int24Bytes v =
  if v <? 256 then [byte_of_Z v; x00; x00]
  else [byte_of_Z (v / 256); byte_of_Z v; x00].
Proof.
intros Hv. rewrite int24Bytes_short by lia.
unfold big.Bytes. rewrite Z.abs_eq by lia.
destruct (v <? 256) eqn:E.
- apply Z.ltb_lt in E.
  rewrite (byteLen_unique v 0) by (simpl; lia).
  rewrite be_bytes_S, byte_of_Z_mod. reflexivity.
- apply Z.ltb_ge in E.
  rewrite (byteLen_unique v 1) by (change (2 ^ 16) with (256 ^ 2) in Hv; simpl; lia).
  rewrite !be_bytes_S, !byte_of_Z_mod. reflexivity.
Qed.

Lemma int24Bytes_gap_layout_witness :
  int24Bytes 887 = [x03; x77; x00].
Proof.
assert (H : 0 < 887 < 2 ^ 16) by lia.
exact (int24Bytes_gap_layout 887 H).
Defined.

(** X5.  Each value from 1 to 65535 has the bytes of another, larger
    value: of [65536 * v] below 256, of [256 * v] from 256. *)
Theorem int24Bytes_gap_collision (v : Z) :
  0 < v < 2 ^ 16 ->
  let w := if v <? 256 then 65536 * v else 256 * v in
  v <> w /\ int24Bytes v = int24Bytes w.
Proof.
intros Hv w. split; [|apply int24Bytes_gap_shifted; exact Hv].
unfold w. destruct (v <? 256); lia.
Qed.

Lemma int24Bytes_gap_collision_witness :
  1 <> 65536 /\ int24Bytes 1 = int24Bytes 65536.
Proof.
assert (H : 0 < 1 < 2 ^ 16) by lia.
exact (int24Bytes_gap_collision 1 H).
Defined.

(** X6.  From [2^16] upwards, adding a multiple of [2^24] does not change
    the bytes. *)
Theorem int24Bytes_period (n k : Z) :
  2 ^ 16 <= n -> 0 <= k ->
  int24Bytes (n + k * 2 ^ 24) = int24Bytes n.
Proof.
intros Hn Hk.
rewrite !int24Bytes_wide by nia.
rewrite <- (be_bytes_mod 3 (n + _)), <- (be_bytes_mod 3 n).
change (256 ^ Z.of_nat 3) with (2 ^ 24).
rewrite Z.mod_add by lia. reflexivity.
Qed.

Lemma int24Bytes_period_witness :
  int24Bytes (197740 + 3 * 2 ^ 24) = int24Bytes 197740.
Proof.
apply int24Bytes_period; lia.
Defined.

(** X7.  A negative number has the bytes of the absolute value of
    [2^24 + n]: below [-2^24] the sign of the difference is lost, and
    from [-2^24] to [-1] the number shares its bytes with [2^24 + n]. *)
Theorem int24Bytes_negative_alias (n : Z) :
  n < 0 -> int24Bytes n = int24Bytes (Z.abs (2 ^ 24 + n)).
Proof.
intros Hn.
rewrite (int24Bytes_nonneg_Bytes (Z.abs _)) by apply Z.abs_nonneg.
rewrite Bytes_abs, int24Bytes_eq.
replace (n <? 0) with true by (symmetry; apply Z.ltb_lt; lia).
reflexivity.
Qed.

Lemma int24Bytes_negative_alias_witness :
  int24Bytes (- 2 ^ 24 - 5) = int24Bytes 5.
Proof.
assert (H : - 2 ^ 24 - 5 < 0) by lia.
exact (int24Bytes_negative_alias (- 2 ^ 24 - 5) H).
Defined.

(** ** encodePacked on every argument list *)

Section EncodePackedEverywhere.

Lemma not_all_supported (args : list iface) :
  forallb supported args = false ->
  Exists (fun arg => supported arg = false) args.
Proof.
induction args as [|arg args IH]; simpl; [discriminate|].
destruct (supported arg) eqn:E; simpl; intros H.
- apply Exists_cons_tl, IH, H.
- apply Exists_cons_hd, E.
Qed.

Lemma encodePacked_from_app_supported (xs ys : list iface) :
  forallb supported xs = true ->
  forallb non_nil xs = true ->
  forall buffer,
    encodePacked_from buffer (xs ++ ys) =
    encodePacked_from (buffer ++ concat (map packed_of xs)) ys.
Proof.
induction xs as [|x xs IH]; intros H N buffer.
- simpl. rewrite app_nil_r. reflexivity.
- simpl in H, N.
  apply andb_true_iff in H as [Hx Hr]. apply andb_true_iff in N as [Nx Nr].
  rewrite <- app_comm_cons, packed_of_supported by assumption.
  rewrite IH by assumption. simpl. rewrite app_assoc. reflexivity.
Qed.

(** Whether the loop returns an error or panics, and with what, does not
    depend on what is in the buffer. *)
Lemma encodePacked_from_failure_any_buffer (args : list iface) :
  forall buffer buffer',
    match encodePacked_from buffer args, encodePacked_from buffer' args with
    | Returns (_, err), Returns (_, err') => err = err'
    | Panics msg, Panics msg' => msg = msg'
    | _, _ => False
    end.
Proof.
induction args as [|arg args IH]; intros buffer buffer'; [reflexivity|].
destruct arg as [a|[n|]|v|s|b|T]; simpl; try apply IH; reflexivity.
Qed.

(** The loop treats two tails alike after any common prefix when it
    treats them alike from any buffer. *)
Lemma encodePacked_from_prefix (pre r1 r2 : list iface) :
  (forall buffer, encodePacked_from buffer r1 = encodePacked_from buffer r2) ->
  forall buffer,
    encodePacked_from buffer (pre ++ r1) = encodePacked_from buffer (pre ++ r2).
Proof.
intros H. induction pre as [|arg pre IH]; intros buffer; [apply H|].
destruct arg as [a|[n|]|v|s|b|T]; simpl; try apply IH; reflexivity.
Qed.

(** What the loop does on a list it does on every extension of the list,
    when it is an error or a panic. *)
Lemma encodePacked_from_app_failure (xs ys : list iface) :
  forall buffer,
    match encodePacked_from buffer xs with
    | Returns (_, Some err) =>
        encodePacked_from buffer (xs ++ ys) = Returns ([], Some err)
    | Panics msg => encodePacked_from buffer (xs ++ ys) = Panics msg
    | Returns (_, None) => True
    end.
Proof.
induction xs as [|x xs IH]; intros buffer; [exact I|].
destruct x as [a|[n|]|v|s|b|T]; simpl; try apply IH; reflexivity.
Qed.

Lemma app_eq_same_length (A : Type) (a a' b b' : list A) :
  length a = length a' -> a ++ b = a' ++ b' -> a = a' /\ b = b'.
Proof.
revert a'. induction a as [|x a IH]; intros [|x' a'] L E;
  try discriminate.
- split; [reflexivity | exact E].
- simpl in L, E. injection E as -> E. injection L as L.
  destruct (IH a' L E) as [-> ->]. split; reflexivity.
Qed.

End EncodePackedEverywhere.

(** X8.  encodePacked returns without an error exactly when every
    argument is of a supported type and no [*big.Int] among them is nil;
    with supported types and a nil pointer it panics. *)
Theorem encodePacked_ok_iff_supported (args : list iface) :
  ((exists buf, encodePacked args = Returns (buf, None)) <->
   forallb supported args = true /\ forallb non_nil args = true) /\
  (forallb supported args = true ->
   forallb non_nil args = false ->
   encodePacked args = Panics nil_dereference).
Proof.
split; [split|].
- intros [buf H]. exact (encodePacked_from_ok args _ _ H).
- intros [H N]. unfold encodePacked.
  rewrite encodePacked_from_supported by assumption.
  eexists. reflexivity.
- intros H N. apply encodePacked_from_nil; assumption.
Qed.

Lemma encodePacked_ok_iff_supported_witness :
  encodePacked [OfInt32 tickLower; OfBigInt None] = Panics nil_dereference.
Proof.
apply (proj2 (encodePacked_ok_iff_supported [OfInt32 tickLower; OfBigInt None]));
  reflexivity.
Defined.

(** X9.  An error or a panic of a list is that of every extension of it,
    the error with the nil buffer; and in front of a list, supported
    values none of which is a nil pointer change neither whether it
    fails, nor its error, nor its panic. *)
Theorem encodePacked_app_error (xs ys : list iface) :
  (forall buf err,
      encodePacked xs = Returns (buf, Some err) ->
      encodePacked (xs ++ ys) = Returns ([], Some err)) /\
  (forall msg,
      encodePacked xs = Panics msg ->
      encodePacked (xs ++ ys) = Panics msg) /\
  (forallb supported xs = true ->
   forallb non_nil xs = true ->
   (forall buf err,
       encodePacked ys = Returns (buf, Some err) ->
       encodePacked (xs ++ ys) = Returns ([], Some err)) /\
   (forall msg,
       encodePacked ys = Panics msg ->
       encodePacked (xs ++ ys) = Panics msg) /\
   (forall buf,
       encodePacked ys = Returns (buf, None) ->
       encodePacked (xs ++ ys) =
       Returns (concat (map packed_of xs) ++ buf, None))).
Proof.
unfold encodePacked.
pose proof (encodePacked_from_app_failure xs ys Buffer.zero) as F.
split; [|split].
- intros buf err H. rewrite H in F. exact F.
- intros msg H. rewrite H in F. exact F.
- intros H N. rewrite encodePacked_from_app_supported by assumption.
  simpl.
  pose proof (encodePacked_from_failure_any_buffer ys
                (concat (map packed_of xs)) Buffer.zero) as B.
  split; [|split].
  + intros buf err E. rewrite E in B.
    destruct (encodePacked_from (concat (map packed_of xs)) ys)
      as [[buf' e]|m] eqn:E'; [|contradiction].
    subst e. apply encodePacked_from_error in E' as E''. subst buf'.
    reflexivity.
  + intros msg E. rewrite E in B.
    destruct (encodePacked_from (concat (map packed_of xs)) ys)
      as [[buf' e]|m]; [contradiction|].
    subst m. reflexivity.
  + intros buf E.
    destruct (encodePacked_from_ok ys _ _ E) as [Hy Ny].
    unfold Buffer.zero in E.
    rewrite encodePacked_from_supported in E by assumption.
    injection E as <-.
    rewrite encodePacked_from_supported by assumption. reflexivity.
Qed.

Lemma encodePacked_app_error_witness :
  encodePacked ([OfInt32 tickLower; Other "bool"] ++ [OfString "x"]) =
    Returns ([], Some "unsupported type: bool"%string) /\
  encodePacked ([OfInt32 tickLower] ++ [Other "bool"]) =
    Returns ([], Some "unsupported type: bool"%string).
Proof.
split.
- apply (proj1 (encodePacked_app_error [OfInt32 tickLower; Other "bool"]
                  [OfString "x"]) []).
  reflexivity.
- apply (proj1 (proj2 (proj2 (encodePacked_app_error [OfInt32 tickLower]
                  [Other "bool"])) eq_refl eq_refl) []).
  reflexivity.
Defined.

(** X10.  The buffer keeps no trace of where a string or byte slice
    ends, nor of which of the two it was: anywhere in a list, two byte
    slices in a row give what their concatenation gives, and a string
    gives what its bytes give. *)
Theorem encodePacked_boundaries_lost (pre post : list iface) :
  (forall a b,
      encodePacked (pre ++ OfBytes a :: OfBytes b :: post) =
      encodePacked (pre ++ OfBytes (a ++ b) :: post)) /\
  (forall s,
      encodePacked (pre ++ OfString s :: post) =
      encodePacked (pre ++ OfBytes (list_byte_of_string s) :: post)).
Proof.
split; intros; unfold encodePacked; apply encodePacked_from_prefix;
  intros buffer; simpl; unfold Buffer.Write.
- rewrite app_assoc. reflexivity.
- reflexivity.
Qed.

(** X11.  For an address and two int32 values of the int24 range outside
    [1 .. 65535], the buffer determines the three of them: equal buffers
    come from the same address bytes and the same two values. *)
Theorem encodePacked_position_injective
  (a a' : Address) (l u l' u' : int32) :
  - 2 ^ 23 <= int32_val l < 2 ^ 23 -> ~ 0 < int32_val l < 2 ^ 16 ->
  - 2 ^ 23 <= int32_val u < 2 ^ 23 -> ~ 0 < int32_val u < 2 ^ 16 ->
  - 2 ^ 23 <= int32_val l' < 2 ^ 23 -> ~ 0 < int32_val l' < 2 ^ 16 ->
  - 2 ^ 23 <= int32_val u' < 2 ^ 23 -> ~ 0 < int32_val u' < 2 ^ 16 ->
  encodePacked [OfAddress a; OfInt32 l; OfInt32 u] =
  encodePacked [OfAddress a'; OfInt32 l'; OfInt32 u'] ->
  Address_array a = Address_array a' /\
  int32_val l = int32_val l' /\ int32_val u = int32_val u'.
Proof.
intros Hl Gl Hu Gu Hl' Gl' Hu' Gu' E.
rewrite !encodePacked_position in E. injection E as E.
apply app_eq_same_length in E as [Ea E];
  [|pose proof (length_Address_Bytes a); pose proof (length_Address_Bytes a');
    unfold Address_Bytes in *; congruence].
apply app_eq_same_length in E as [El Eu];
  [|rewrite !length_int24Bytes; reflexivity].
split; [exact Ea|].
split.
- rewrite <- (decodeInt24_roundtrip_outside_gap (int32_val l)) by lia.
  rewrite <- (decodeInt24_roundtrip_outside_gap (int32_val l')) by lia.
  rewrite El. reflexivity.
- rewrite <- (decodeInt24_roundtrip_outside_gap (int32_val u)) by lia.
  rewrite <- (decodeInt24_roundtrip_outside_gap (int32_val u')) by lia.
  rewrite Eu. reflexivity.
Qed.

Lemma encodePacked_position_injective_witness :
  Address_array ownerPositionAddress = Address_array ownerPositionAddress /\
  int32_val tickLower = -197740 /\ int32_val tickUpper = -197640.
Proof.
apply (encodePacked_position_injective
         ownerPositionAddress ownerPositionAddress
         tickLower tickUpper
         (mkInt32 (-197740) eq_refl) (mkInt32 (-197640) eq_refl));
  simpl; try lia; reflexivity.
Defined.

(** ** calcPositionKey on every address and pair of ticks *)

(** X12.  A tick from 1 to 65535 and the larger tick that shares its
    bytes give the same key, as lower tick and as upper tick, whatever
    the hash function. *)
Theorem calcPositionKey_gap_collision
  (Keccak256Hash : list byte -> Hash)
  (address : Address) (t t' other : int32) :
  0 < int32_val t < 2 ^ 16 ->
  int32_val t' =
    (if int32_val t <? 256 then 65536 * int32_val t else 256 * int32_val t) ->
  int32_val t <> int32_val t' /\
  calcPositionKey Keccak256Hash address t other =
  calcPositionKey Keccak256Hash address t' other /\
  calcPositionKey Keccak256Hash address other t =
  calcPositionKey Keccak256Hash address other t'.
Proof.
intros Ht Et'.
assert (E : int24Bytes (int32_val t) = int24Bytes (int32_val t'))
  by (rewrite Et'; apply int24Bytes_gap_shifted; exact Ht).
split; [|split].
- rewrite Et'. destruct (int32_val t <? 256); lia.
- rewrite !calcPositionKey_eq, E. reflexivity.
- rewrite !calcPositionKey_eq, E. reflexivity.
Qed.

Lemma calcPositionKey_gap_collision_witness :
  calcPositionKey Keccak.Keccak256Hash ownerPositionAddress
    (mkInt32 1 eq_refl) tickUpper =
  calcPositionKey Keccak.Keccak256Hash ownerPositionAddress
    (mkInt32 65536 eq_refl) tickUpper.
Proof.
assert (H : 0 < int32_val (mkInt32 1 eq_refl) < 2 ^ 16) by (simpl; lia).
exact (proj1 (proj2 (calcPositionKey_gap_collision Keccak.Keccak256Hash
                       ownerPositionAddress
                       (mkInt32 1 eq_refl) (mkInt32 65536 eq_refl) tickUpper
                       H eq_refl))).
Defined.

(** X13.  For ticks of the int24 range outside [1 .. 65535] the key is
    the hash of the 20 address bytes followed by the 3-byte big-endian
    two's complement of each tick. *)
Theorem calcPositionKey_big_endian_ticks
  (Keccak256Hash : list byte -> Hash)
  (address : Address) (lower upper : int32) :
  - 2 ^ 23 <= int32_val lower < 2 ^ 23 -> ~ 0 < int32_val lower < 2 ^ 16 ->
  - 2 ^ 23 <= int32_val upper < 2 ^ 23 -> ~ 0 < int32_val upper < 2 ^ 16 ->
  calcPositionKey Keccak256Hash address lower upper =
  Returns
    (Keccak256Hash
       (Address_array address ++
          be_bytes 3 (int32_val lower mod 2 ^ 24) ++
          be_bytes 3 (int32_val upper mod 2 ^ 24)),
     None).
Proof.
intros Hl Gl Hu Gu.
rewrite calcPositionKey_eq.
rewrite (int24Bytes_agrees (int32_val lower)) by lia.
rewrite (int24Bytes_agrees (int32_val upper)) by lia.
rewrite !encodeInt24_spec_eq. reflexivity.
Qed.

Lemma calcPositionKey_big_endian_ticks_witness :
  calcPositionKey Keccak.Keccak256Hash ownerPositionAddress tickLower tickUpper =
  Returns
    (Keccak.Keccak256Hash
       (Address_array ownerPositionAddress ++
          be_bytes 3 (int32_val tickLower mod 2 ^ 24) ++
          be_bytes 3 (int32_val tickUpper mod 2 ^ 24)),
     None).
Proof.
apply calcPositionKey_big_endian_ticks; simpl; lia.
Defined.

(** ** main *)

Example abiUniV3Pool_begins :
  substring 0 12 abiUniV3Pool =
  String "[" (String "{" (String (ascii_of_nat 34)
    ("inputs" ++ String (ascii_of_nat 34) (String ":" (String "[" ""))))).
Proof. reflexivity. Qed.

Example abiUniV3Pool_length : String.length abiUniV3Pool = 491%nat.
Proof. reflexivity. Qed.

Section MainProperties.

Variables ABI Client : Type.
Variable Keccak256Hash : list byte -> Hash.
Variable abi_JSON : string -> ABI * error.
Variable Pack : ABI -> string -> Hash -> list byte * error.
Variable Dial : string -> Client * error.
Variable CallContract : Client -> CallMsg -> list byte * error.
Variable UnpackIntoInterface :
  ABI -> Position -> string -> list byte -> Position * error.

Local Abbreviation run :=
  (main ABI Client Keccak256Hash abi_JSON Pack Dial CallContract
        UnpackIntoInterface).

(** The key main computes, the parsed contract and the message it hands
    to [CallContract]. *)
Local Abbreviation the_key :=
  (Keccak256Hash
     (Address_array ownerPositionAddress ++
        int24Bytes (int32_val tickLower) ++ int24Bytes (int32_val tickUpper))).
Local Abbreviation the_contract := (fst (abi_JSON abiUniV3Pool)).
Local Abbreviation the_msg :=
  (mkCallMsg poolAddress (fst (Pack the_contract positionsMethod the_key))).

(** main with the key stage resolved. *)
Lemma main_after_key :
  run =
  match Dial nodeAddr with
  | (_, Some err) => Fatal [Text "conenct to node:"; Err err]
  | (client, None) =>
      match CallContract client the_msg with
      | (_, Some err) => Fatal [Text "call contract:"; Err err]
      | (response, None) =>
          match UnpackIntoInterface the_contract Position_zero
                  positionsMethod response with
          | (_, Some err) =>
              Fatal [Text "parse result contract: "; Err err;
                     Text "response: "; Text (string_of_list_byte response)]
          | (position, None) => Printf "%+v" position
          end
      end
  end.
Proof.
unfold main. rewrite calcPositionKey_eq.
destruct (abi_JSON abiUniV3Pool) as [contract e0]. simpl fst.
destruct (Pack contract positionsMethod _) as [calldata e1]. simpl fst.
reflexivity.
Qed.

End MainProperties.

(** X14.  Whatever the calls into go-ethereum return, main does not end
    in the fatal "calc position key:"; and when [Dial] fails it ends in
    "conenct to node:" with that error. *)
Theorem main_never_fails_at_key
  (ABI Client : Type)
  (Keccak256Hash : list byte -> Hash)
  (abi_JSON : string -> ABI * error)
  (Pack : ABI -> string -> Hash -> list byte * error)
  (Dial : string -> Client * error)
  (CallContract : Client -> CallMsg -> list byte * error)
  (UnpackIntoInterface :
     ABI -> Position -> string -> list byte -> Position * error) :
  (forall v,
      main ABI Client Keccak256Hash abi_JSON Pack Dial CallContract
           UnpackIntoInterface
      <> Fatal (Text "calc position key:" :: v)) /\
  (forall err,
      snd (Dial nodeAddr) = Some err <->
      main ABI Client Keccak256Hash abi_JSON Pack Dial CallContract
           UnpackIntoInterface
      = Fatal [Text "conenct to node:"; Err err]).
Proof.
rewrite main_after_key.
destruct (Dial nodeAddr) as [client [e|]]; simpl snd.
- split; [intros v; discriminate|].
  intros err. split; intros H; [injection H as <-; reflexivity|].
  injection H as <-. reflexivity.
- destruct (CallContract client _) as [response [e|]].
  + split; [intros v; discriminate|].
    intros err. split; discriminate.
  + destruct (UnpackIntoInterface _ _ _ response) as [position [e|]].
    * split; [intros v; discriminate|].
      intros err. split; discriminate.
    * split; [intros v; discriminate|].
      intros err. split; discriminate.
Qed.

(** X15.  main prints a position exactly when [Dial] succeeds, the call
    succeeds and the decoding succeeds; the call goes to the pool
    address with the data [Pack] returns for [positions] and the key of
    the owner address and the two ticks, and the position printed is the
    one decoded from the response to that call. *)
Theorem main_prints_iff
  (ABI Client : Type)
  (Keccak256Hash : list byte -> Hash)
  (abi_JSON : string -> ABI * error)
  (Pack : ABI -> string -> Hash -> list byte * error)
  (Dial : string -> Client * error)
  (CallContract : Client -> CallMsg -> list byte * error)
  (UnpackIntoInterface :
     ABI -> Position -> string -> list byte -> Position * error)
  (format : string) (position : Position) :
  let key :=
    Keccak256Hash
      (Address_array ownerPositionAddress ++
         [xfc; xfb; x94] ++ [xfc; xfb; xf8]) in
  let contract := fst (abi_JSON abiUniV3Pool) in
  let msg := mkCallMsg poolAddress (fst (Pack contract positionsMethod key)) in
  main ABI Client Keccak256Hash abi_JSON Pack Dial CallContract
       UnpackIntoInterface
  = Printf format position <->
  format = "%+v"%string /\
  exists client response,
    Dial nodeAddr = (client, None) /\
    CallContract client msg = (response, None) /\
    UnpackIntoInterface contract Position_zero positionsMethod response =
    (position, None).
Proof.
intros key contract msg. rewrite main_after_key.
change (int24Bytes (int32_val tickLower)) with [xfc; xfb; x94].
change (int24Bytes (int32_val tickUpper)) with [xfc; xfb; xf8].
fold key. fold contract. fold msg.
destruct (Dial nodeAddr) as [client [e|]].
- split; [discriminate|].
  intros (_ & c & r & H & _). discriminate.
- destruct (CallContract client msg) as [response [e|]] eqn:EC.
  + split; [discriminate|].
    intros (_ & c & r & H & H' & _).
    injection H as <-. rewrite EC in H'. discriminate.
  + destruct (UnpackIntoInterface contract Position_zero positionsMethod response)
      as [p [e|]] eqn:EU.
    * split; [discriminate|].
      intros (_ & c & r & H & H' & H'').
      injection H as <-. rewrite EC in H'. injection H' as <-.
      rewrite EU in H''. discriminate.
    * split.
      -- intros H. injection H as <- <-. split; [reflexivity|].
         exists client, response. repeat split; assumption.
      -- intros (-> & c & r & H & H' & H'').
         injection H as <-. rewrite EC in H'. injection H' as <-.
         rewrite EU in H''. injection H'' as <-. reflexivity.
Qed.
